(** * The Scrapy scheduler (scrapy/core/scheduler/schedulers.py)

    A shallow embedding of the [Scheduler] class: its four attributes
    become a record, its methods become computations in a small
    state-and-exception monad, and the Twisted [Deferred] objects it
    hands out live in an explicit store addressed by handles. *)

From stdpp Require Import gmap strings list fin_maps.
From Stdlib Require Import ZArith.

Local Open Scope Z_scope.
Set Warnings "-clear-no-such-hyp".

(** ** Python-level data *)

(** Domains are the site keys used as dictionary keys and set members. *)
Abbreviation Domain := string.

(** A request is opaque to the scheduler except for its [priority]. *)
Record Request := mkRequest { url : string; priority : Z }.

(** A handle is the address of a [Deferred] object in the store. *)
Abbreviation Handle := nat.

(** twisted.internet.defer.Deferred, reduced to the attribute that says
    whether a result has been delivered to it. [defer.Deferred()] builds
    one with [called = False]. *)
Record Deferred := mkDeferred { called : bool }.

(** The Python values the methods return. *)
Inductive value :=
  | VNone
  | VBool (b : bool)
  | VInt (n : Z)
  | VStr (s : string)
  | VRequest (r : Request)
  | VDeferred (h : Handle).

(** Python truth value of a returned object. *)
Definition truthy (v : value) : bool :=
  match v with
  | VNone => false
  | VBool b => b
  | VInt n => negb (n =? 0)
  | VStr s => negb (String.eqb s "")
  | VRequest _ | VDeferred _ => true
  end.

(** The exceptions that occur in the module. *)
Inductive exn := KeyError | IndexError.

Global Instance exn_eq_dec : EqDecision exn.
Proof. solve_decision. Defined.

(** ** scrapy.utils.datatypes *)

Module datatypes.

(** Modelled from the spec: the classes [PriorityQueue] and
    [PriorityStack] of scrapy.utils.datatypes are imported by the
    scheduler but are not among the sources. Following section 4.1 of the
    specification, both offer [push(item, priority)] and
    [pop() -> (item, priority)]; the highest priority is returned first;
    among equal priorities the queue returns the oldest item and the
    stack the newest; [pop] on an empty container fails (the scheduler
    catches [IndexError]). The items are kept in the order in which
    [pop] will return them. *)
Inductive Container (A : Type) :=
  | PriorityQueue (items : list (A * Z))
  | PriorityStack (items : list (A * Z)).
Arguments PriorityQueue {A} items.
Arguments PriorityStack {A} items.

Definition items {A} (c : Container A) : list (A * Z) :=
  match c with PriorityQueue l | PriorityStack l => l end.

Definition is_stack {A} (c : Container A) : bool :=
  match c with PriorityQueue _ => false | PriorityStack _ => true end.

(** [place ahead x p l] puts [(x, p)] behind every entry [q] of [l] that
    stays ahead of it ([ahead q p = true]). *)
Fixpoint place {A} (ahead : Z -> Z -> bool) (x : A) (p : Z)
    (l : list (A * Z)) : list (A * Z) :=
  match l with
  | [] => [(x, p)]
  | (y, q) :: l' =>
      if ahead q p then (y, q) :: place ahead x p l' else (x, p) :: l
  end.

(** Modelled from the spec: [push]; ties are first-in-first-out in the
    queue and last-in-first-out in the stack. *)
Definition push {A} (item : A) (prio : Z) (c : Container A) : Container A :=
  match c with
  | PriorityQueue l => PriorityQueue (place Z.geb item prio l)
  | PriorityStack l => PriorityStack (place Z.gtb item prio l)
  end.

(** Modelled from the spec: [pop] returns [(item, priority)] and the
    container without it, or raises on an empty container. *)
Definition pop {A} (c : Container A) : (A * Z) * Container A + exn :=
  match c with
  | PriorityQueue [] | PriorityStack [] => inr IndexError
  | PriorityQueue (e :: l) => inl (e, PriorityQueue l)
  | PriorityStack (e :: l) => inl (e, PriorityStack l)
  end.

(** Modelled from the spec: the truth value of a container, [True] iff it
    holds an item. *)
Definition nonzero {A} (c : Container A) : bool :=
  match items c with [] => false | _ :: _ => true end.

End datatypes.
Import datatypes.

(** ** The scheduler object and the store *)

Record Scheduler := mkScheduler {
  pending_domains : gset Domain;
  domains_queue : Container Domain;
  pending_requests : gmap Domain (Container (Request * Handle));
  dfo : bool
}.

(** The world a method runs in: the scheduler's attributes and the store
    of the [Deferred] objects allocated so far. *)
Record World := mkWorld {
  self : Scheduler;
  deferreds : list Deferred
}.

Definition set_pending_domains (x : gset Domain) (s : Scheduler) :=
  mkScheduler x (domains_queue s) (pending_requests s) (dfo s).
Definition set_domains_queue (x : Container Domain) (s : Scheduler) :=
  mkScheduler (pending_domains s) x (pending_requests s) (dfo s).
Definition set_pending_requests
    (x : gmap Domain (Container (Request * Handle))) (s : Scheduler) :=
  mkScheduler (pending_domains s) (domains_queue s) x (dfo s).

(** ** A state-and-exception monad for method bodies *)

Inductive outcome (A : Type) :=
  | Ret (a : A)
  | Raise (e : exn).
Arguments Ret {A} a.
Arguments Raise {A} e.

(** A computation returns or raises, and in both cases leaves a world
    behind: what was mutated before an exception stays mutated. *)
Definition M (A : Type) : Type := World -> outcome A * World.

Global Instance M_ret : MRet M := fun A a w => (Ret a, w).
Global Instance M_bind : MBind M := fun A B f m w =>
  match m w with
  | (Ret a, w') => f a w'
  | (Raise e, w') => (Raise e, w')
  end.

Definition raise {A} (e : exn) : M A := fun w => (Raise e, w).
Definition gets {A} (f : Scheduler -> A) : M A := fun w => (Ret (f (self w)), w).
Definition modify (f : Scheduler -> Scheduler) : M unit :=
  fun w => (Ret tt, mkWorld (f (self w)) (deferreds w)).

(** [try: body except (e1, e2, ...): handler] *)
Definition try_except {A} (body : M A) (caught : list exn) (handler : M A) : M A :=
  fun w =>
    match body w with
    | (Ret a, w') => (Ret a, w')
    | (Raise e, w') =>
        if bool_decide (e ∈ caught) then handler w' else (Raise e, w')
    end.

(** [defer.Deferred()]: a new object at the next free address. *)
Definition new_Deferred : M Handle :=
  fun w => (Ret (length (deferreds w)),
            mkWorld (self w) (deferreds w ++ [mkDeferred false])).

(** [set.remove(x)]: raises [KeyError] when [x] is absent, and like every
    mutating method of [set] returns [None]. *)
Definition pending_domains_remove (x : Domain) : M value :=
  pd ← gets pending_domains;
  if bool_decide (x ∈ pd)
  then _ ← modify (set_pending_domains (pd ∖ {[x]})); mret VNone
  else raise KeyError.

(** [self.pending_requests[domain]] *)
Definition pending_requests_getitem (domain : Domain)
    : M (Container (Request * Handle)) :=
  pr ← gets pending_requests;
  match pr !! domain with
  | Some q => mret q
  | None => raise KeyError
  end.

(** The result of a container method, lifted into the monad. *)
Definition lift_pop {A} (r : (A * Z) * Container A + exn)
    : M ((A * Z) * Container A) :=
  match r with
  | inl x => mret x
  | inr e => raise e
  end.

(** ** The methods of [Scheduler] *)

(** ASCII upper-casing, as [str.upper] does on the setting's value. *)
Definition upper_ascii (c : Ascii.ascii) : Ascii.ascii :=
  let n := Ascii.nat_of_ascii c in
  if (97 <=? n)%nat && (n <=? 122)%nat then Ascii.ascii_of_nat (n - 32) else c.

Fixpoint upper (s : string) : string :=
  match s with
  | EmptyString => EmptyString
  | String c s' => String (upper_ascii c) (upper s')
  end.

(** [__init__]; the argument is the value of [settings['SCHEDULER_ORDER']]. *)
Definition __init__ (SCHEDULER_ORDER : string) : Scheduler :=
  {| pending_domains := ∅;
     domains_queue := PriorityQueue [];
     pending_requests := ∅;
     dfo := String.eqb (upper SCHEDULER_ORDER) "DFO" |}.

Definition domain_is_open (domain : Domain) : M bool :=
  pr ← gets pending_requests;
  mret (bool_decide (is_Some (pr !! domain))).

Definition domain_is_pending (domain : Domain) : M bool :=
  pd ← gets pending_domains;
  mret (bool_decide (domain ∈ pd)).

Definition domain_has_pending_requests (domain : Domain) : M value :=
  pr ← gets pending_requests;
  if bool_decide (is_Some (pr !! domain))
  then q ← pending_requests_getitem domain; mret (VBool (nonzero q))
  else mret VNone.

Definition next_domain : M value :=
  pd ← gets pending_domains;
  if negb (bool_decide (size pd = 0%nat)) then
    dq ← gets domains_queue;
    '(entry, dq') ← lift_pop (pop dq);
    _ ← modify (set_domains_queue dq');
    let domain := entry.1 in
    _ ← pending_domains_remove domain;
    mret (VStr domain)
  else mret VNone.

Definition add_domain (domain : Domain) (prio : Z) : M unit :=
  pd ← gets pending_domains;
  if negb (bool_decide (domain ∈ pd)) then
    _ ← modify (fun s => set_domains_queue (push domain prio (domains_queue s)) s);
    modify (fun s => set_pending_domains (pending_domains s ∪ {[domain]}) s)
  else mret tt.

Definition open_domain (domain : Domain) : M unit :=
  d ← gets dfo;
  let Priority := if (d : bool) then @PriorityStack (Request * Handle)
                  else @PriorityQueue (Request * Handle) in
  modify (fun s => set_pending_requests (<[domain := Priority []]> (pending_requests s)) s).

Definition enqueue_request (domain : Domain) (request : Request) : M Handle :=
  dfd ← new_Deferred;
  q ← pending_requests_getitem domain;
  _ ← modify (fun s => set_pending_requests
                (<[domain := push (request, dfd) (priority request) q]>
                   (pending_requests s)) s);
  mret dfd.

Definition next_request (domain : Domain) : M (value * value) :=
  try_except
    (q ← pending_requests_getitem domain;
     '(entry, q') ← lift_pop (pop q);
     _ ← modify (fun s => set_pending_requests
                   (<[domain := q']> (pending_requests s)) s);
     mret (VRequest entry.1.1, VDeferred entry.1.2))
    [KeyError; IndexError]
    (mret (VNone, VNone)).

Definition close_domain (domain : Domain) : M unit :=
  modify (fun s => set_pending_requests (delete domain (pending_requests s)) s).

Definition remove_pending_domain (domain : Domain) : M value :=
  pd ← gets pending_domains;
  if bool_decide (domain ∈ pd) then
    isopen ← domain_is_open domain;
    if negb isopen then pending_domains_remove domain else mret VNone
  else mret VNone.

Definition is_idle : M bool :=
  pr ← gets pending_requests;
  mret (negb (negb (bool_decide (size pr = 0%nat)))).

(** ** Running methods *)

(** The world a method call leaves behind, whether it returned or raised. *)
Definition after {A} (m : M A) (w : World) : World := (m w).2.

(** The result of a method call. *)
Definition result {A} (m : M A) (w : World) : outcome A := (m w).1.

(** A call of one of the public methods. *)
Inductive call :=
  | Call_domain_is_open (domain : Domain)
  | Call_domain_is_pending (domain : Domain)
  | Call_domain_has_pending_requests (domain : Domain)
  | Call_next_domain
  | Call_add_domain (domain : Domain) (prio : Z)
  | Call_open_domain (domain : Domain)
  | Call_enqueue_request (domain : Domain) (request : Request)
  | Call_next_request (domain : Domain)
  | Call_close_domain (domain : Domain)
  | Call_remove_pending_domain (domain : Domain)
  | Call_is_idle.

Definition exec (c : call) : World -> World :=
  match c with
  | Call_domain_is_open d => after (domain_is_open d)
  | Call_domain_is_pending d => after (domain_is_pending d)
  | Call_domain_has_pending_requests d => after (domain_has_pending_requests d)
  | Call_next_domain => after next_domain
  | Call_add_domain d p => after (add_domain d p)
  | Call_open_domain d => after (open_domain d)
  | Call_enqueue_request d r => after (enqueue_request d r)
  | Call_next_request d => after (next_request d)
  | Call_close_domain d => after (close_domain d)
  | Call_remove_pending_domain d => after (remove_pending_domain d)
  | Call_is_idle => after is_idle
  end.

(** A sequence of calls, the first call first. *)
Definition exec_all (cs : list call) (w : World) : World :=
  foldl (fun w c => exec c w) w cs.

(** The domains held by the domain order queue, in pop order. *)
Definition queued_domains (s : Scheduler) : list Domain :=
  (items (domains_queue s)).*1.

(** A freshly constructed scheduler with an empty store. *)
Definition fresh (SCHEDULER_ORDER : string) : World :=
  mkWorld (__init__ SCHEDULER_ORDER) [].

(** The calls [add_domain(d, p)] for a list of pairs [(d, p)]. *)
Definition add_calls (adds : list (Domain * Z)) : list call :=
  (fun a => Call_add_domain a.1 a.2) <$> adds.

(** ** Properties of scheduler states *)

(** The domain order queue holds every pending domain once, and nothing
    else. *)
Definition in_sync (s : Scheduler) : Prop :=
  NoDup (queued_domains s) ∧ ∀ d, d ∈ queued_domains s ↔ d ∈ pending_domains s.

(** Every per-domain queue is of the variant the flag [dfo] asks for. *)
Definition per_domain_variant (s : Scheduler) : Prop :=
  map_Forall (fun _ q => is_stack q = dfo s) (pending_requests s).

(** Data for the concrete runs below. *)
Definition example_request : Request := mkRequest "http://example.com/" 0.
Definition R1 : Request := mkRequest "http://example.com/1" 1.
Definition R2 : Request := mkRequest "http://example.com/2" 1.
Definition R3 : Request := mkRequest "http://example.com/3" 2.

(** Open a domain, enqueue [R1], [R2], [R3] and take three requests. *)
Definition three_requests (SCHEDULER_ORDER : string) : outcome (list (value * value)) :=
  result (_ ← open_domain "example.com";
          _ ← enqueue_request "example.com" R1;
          _ ← enqueue_request "example.com" R2;
          _ ← enqueue_request "example.com" R3;
          a ← next_request "example.com";
          b ← next_request "example.com";
          c ← next_request "example.com";
          mret [a; b; c]) (fresh SCHEDULER_ORDER).

(** ** Caller loops *)

(** [n] successive calls of [next_domain]; the results in call order. *)
Fixpoint next_domains (n : nat) : M (list value) :=
  match n with
  | O => mret []
  | S n' => v ← next_domain; vs ← next_domains n'; mret (v :: vs)
  end.

(** [enqueue_request(domain, r)] for each [r] of a list; the handles in
    call order. *)
Fixpoint enqueue_requests (domain : Domain) (requests : list Request)
    : M (list Handle) :=
  match requests with
  | [] => mret []
  | r :: rs =>
      h ← enqueue_request domain r;
      hs ← enqueue_requests domain rs;
      mret (h :: hs)
  end.

(** [n] successive calls of [next_request(domain)]; the results in call
    order. *)
Fixpoint next_requests (domain : Domain) (n : nat) : M (list (value * value)) :=
  match n with
  | O => mret []
  | S n' => v ← next_request domain; vs ← next_requests domain n'; mret (v :: vs)
  end.

(** The domain whose request queue a call works on, if any. *)
Definition request_domain (c : call) : option Domain :=
  match c with
  | Call_open_domain d | Call_enqueue_request d _
  | Call_next_request d | Call_close_domain d => Some d
  | _ => None
  end.

(** The calls of the admission side: they work on the pending domains. *)
Definition admission_call (c : call) : bool :=
  match c with
  | Call_next_domain | Call_add_domain _ _ | Call_remove_pending_domain _ => true
  | _ => false
  end.

(** Every pending domain has an entry in the domain order queue. *)
Definition pending_queued (s : Scheduler) : Prop :=
  ∀ d, d ∈ pending_domains s → d ∈ queued_domains s.

(** The value [next_request] returns for a queue entry. *)
Definition entry_value (e : Request * Handle * Z) : value * value :=
  (VRequest e.1.1, VDeferred e.1.2).

(** ** What each method does, in closed form *)

Ltac run_m :=
  unfold result, after, next_request, enqueue_request, close_domain,
    open_domain, add_domain, next_domain, remove_pending_domain, is_idle,
    domain_is_open, domain_is_pending, domain_has_pending_requests,
    pending_requests_getitem, pending_domains_remove, try_except,
    new_Deferred, lift_pop, gets, modify, raise, mbind, M_bind, mret, M_ret;
  cbn beta iota delta [fst snd self deferreds].

Lemma caught_KeyError : bool_decide (KeyError ∈ [KeyError; IndexError]) = true.
Proof. apply bool_decide_eq_true_2. set_solver. Qed.

Lemma caught_IndexError : bool_decide (IndexError ∈ [KeyError; IndexError]) = true.
Proof. apply bool_decide_eq_true_2. set_solver. Qed.

Lemma World_eta (w : World) : mkWorld (self w) (deferreds w) = w.
Proof. by destruct w. Qed.

Lemma Scheduler_eta (s : Scheduler) :
  mkScheduler (pending_domains s) (domains_queue s) (pending_requests s) (dfo s) = s.
Proof. by destruct s. Qed.

Lemma pop_empty {A} (c : Container A) : items c = [] → pop c = inr IndexError.
Proof. destruct c as [l|l]; simpl; intros ->; done. Qed.

Lemma pop_nonempty {A} (c : Container A) :
  items c ≠ [] → ∃ e c', pop c = inl (e, c') ∧ items c = e :: items c'
                         ∧ is_stack c' = is_stack c.
Proof. destruct c as [[|e l]|[|e l]]; simpl; intros H; try done; eauto. Qed.

Lemma pop_inl {A} (c c' : Container A) e :
  pop c = inl (e, c') → items c = e :: items c' ∧ is_stack c' = is_stack c.
Proof. destruct c as [[|x l]|[|x l]]; simpl; intros H; simplify_eq; done. Qed.

Lemma nonzero_true {A} (c : Container A) : nonzero c = true ↔ items c ≠ [].
Proof. unfold nonzero. destruct (items c); split; done. Qed.

(** The two disciplines on the run of section 8 of the specification. *)
Example breadth_first_order :
  three_requests "BFO" = Ret [(VRequest R3, VDeferred 2%nat);
                              (VRequest R1, VDeferred 0%nat);
                              (VRequest R2, VDeferred 1%nat)].
Proof. reflexivity. Qed.

Example depth_first_order :
  three_requests "dfo" = Ret [(VRequest R3, VDeferred 2%nat);
                              (VRequest R2, VDeferred 1%nat);
                              (VRequest R1, VDeferred 0%nat)].
Proof. reflexivity. Qed.

Lemma next_request_closed w domain :
  pending_requests (self w) !! domain = None →
  next_request domain w = (Ret (VNone, VNone), w).
Proof. intros H. run_m. rewrite H. by rewrite caught_KeyError. Qed.

Lemma next_request_empty w domain q :
  pending_requests (self w) !! domain = Some q → items q = [] →
  next_request domain w = (Ret (VNone, VNone), w).
Proof.
  intros H Hq. run_m. rewrite H, (pop_empty q Hq). by rewrite caught_IndexError.
Qed.

Lemma next_request_pop w domain q r h p q' :
  pending_requests (self w) !! domain = Some q →
  pop q = inl ((r, h, p), q') →
  next_request domain w =
    (Ret (VRequest r, VDeferred h),
     mkWorld (set_pending_requests (<[domain := q']> (pending_requests (self w)))
                (self w)) (deferreds w)).
Proof. intros H Hq. run_m. by rewrite H, Hq. Qed.

Lemma enqueue_request_closed w domain request :
  pending_requests (self w) !! domain = None →
  enqueue_request domain request w =
    (Raise KeyError, mkWorld (self w) (deferreds w ++ [mkDeferred false])).
Proof. intros H. run_m. by rewrite H. Qed.

Lemma enqueue_request_open w domain request q :
  pending_requests (self w) !! domain = Some q →
  enqueue_request domain request w =
    (Ret (length (deferreds w)),
     mkWorld (set_pending_requests
                (<[domain := push (request, length (deferreds w))
                               (priority request) q]> (pending_requests (self w)))
                (self w))
             (deferreds w ++ [mkDeferred false])).
Proof. intros H. run_m. by rewrite H. Qed.

Lemma open_domain_eq w domain :
  open_domain domain w =
    (Ret tt,
     mkWorld (set_pending_requests
                (<[domain := if dfo (self w) then PriorityStack []
                             else PriorityQueue []]> (pending_requests (self w)))
                (self w)) (deferreds w)).
Proof. run_m. by destruct (dfo (self w)). Qed.

Lemma close_domain_eq w domain :
  close_domain domain w =
    (Ret tt,
     mkWorld (set_pending_requests (delete domain (pending_requests (self w)))
                (self w)) (deferreds w)).
Proof. done. Qed.

Lemma add_domain_pending w domain prio :
  domain ∈ pending_domains (self w) → add_domain domain prio w = (Ret tt, w).
Proof. intros H. run_m. by rewrite bool_decide_eq_true_2. Qed.

Lemma add_domain_new w domain prio :
  domain ∉ pending_domains (self w) →
  add_domain domain prio w =
    (Ret tt,
     mkWorld (mkScheduler (pending_domains (self w) ∪ {[domain]})
                (push domain prio (domains_queue (self w)))
                (pending_requests (self w)) (dfo (self w)))
             (deferreds w)).
Proof. intros H. run_m. by rewrite bool_decide_eq_false_2. Qed.

Lemma remove_pending_domain_eq w domain :
  remove_pending_domain domain w =
    (Ret VNone,
     if bool_decide (domain ∈ pending_domains (self w))
        && negb (bool_decide (is_Some (pending_requests (self w) !! domain)))
     then mkWorld (set_pending_domains (pending_domains (self w) ∖ {[domain]})
                     (self w)) (deferreds w)
     else w).
Proof.
  run_m. destruct (bool_decide (domain ∈ pending_domains (self w))) eqn:E1; [|done].
  destruct (bool_decide (is_Some _)) eqn:E2; cbn; [done|]. by rewrite E1.
Qed.

Lemma domain_has_pending_requests_eq w domain :
  domain_has_pending_requests domain w =
    (Ret (match pending_requests (self w) !! domain with
          | Some q => VBool (nonzero q)
          | None => VNone
          end), w).
Proof.
  run_m. destruct (pending_requests (self w) !! domain) as [q|] eqn:E.
  - rewrite bool_decide_eq_true_2 by eauto. cbn. by rewrite E.
  - rewrite bool_decide_eq_false_2; [done|]. by intros [? ?].
Qed.

Lemma is_idle_eq w :
  is_idle w = (Ret (bool_decide (pending_requests (self w) = ∅)), w).
Proof.
  run_m. rewrite negb_involutive. do 2 f_equal.
  apply bool_decide_ext. apply map_size_empty_iff.
Qed.

Lemma next_domain_eq w :
  next_domain w =
    if bool_decide (pending_domains (self w) = ∅) then (Ret VNone, w)
    else match pop (domains_queue (self w)) with
         | inr e => (Raise e, w)
         | inl ((d, _), dq') =>
             if bool_decide (d ∈ pending_domains (self w))
             then (Ret (VStr d),
                   mkWorld (mkScheduler (pending_domains (self w) ∖ {[d]}) dq'
                              (pending_requests (self w)) (dfo (self w)))
                           (deferreds w))
             else (Raise KeyError,
                   mkWorld (set_domains_queue dq' (self w)) (deferreds w))
         end.
Proof.
  run_m.
  rewrite (bool_decide_ext (size (pending_domains (self w)) = 0%nat)
             (pending_domains (self w) = ∅))
    by (rewrite size_empty_iff; apply leibniz_equiv_iff).
  destruct (bool_decide (pending_domains (self w) = ∅)); [done|]. cbn.
  destruct (pop (domains_queue (self w))) as [[[d p] dq']|e]; [|done]. cbn.
  by destruct (bool_decide (d ∈ pending_domains (self w))).
Qed.

(** ** Sentinels and failures of the request methods *)

(** C4: [next_request(D)] returns [(None, None)] when [D] has no queue and
    when [D]'s queue is empty; otherwise it returns the popped
    [(request, handle)] pair and leaves the rest of the queue in place;
    it never raises. *)
Theorem next_request_sentinel_or_pair (w : World) (domain : Domain) :
  (pending_requests (self w) !! domain = None →
     next_request domain w = (Ret (VNone, VNone), w)) ∧
  (∀ q, pending_requests (self w) !! domain = Some q → items q = [] →
     next_request domain w = (Ret (VNone, VNone), w)) ∧
  (∀ q, pending_requests (self w) !! domain = Some q → items q ≠ [] →
     ∃ r h p q', pop q = inl ((r, h, p), q') ∧
       next_request domain w =
         (Ret (VRequest r, VDeferred h),
          mkWorld (set_pending_requests
                     (<[domain := q']> (pending_requests (self w))) (self w))
                  (deferreds w))) ∧
  (∃ v, result (next_request domain) w = Ret v).
Proof.
  split; [by apply next_request_closed|].
  split; [intros q Hq Hi; by apply next_request_empty with q|].
  split.
  - intros q Hq Hne.
    destruct (pop_nonempty q Hne) as ([[r h] p] & q' & Hpop & _).
    exists r, h, p, q'. split; [done|]. by apply (next_request_pop w domain q r h p q').
  - unfold result. destruct (pending_requests (self w) !! domain) as [q|] eqn:Hq.
    + destruct (items q) as [|e l] eqn:Hi.
      * rewrite (next_request_empty w domain q) by done. eauto.
      * destruct (pop_nonempty q) as ([[r h] p] & q' & Hpop & _); [by rewrite Hi|].
        rewrite (next_request_pop w domain q r h p q') by done. eauto.
    + rewrite next_request_closed by done. eauto.
Qed.

(** C6: [enqueue_request(D, r)] on a domain without an entry in
    [pending_requests] raises [KeyError] and leaves the scheduler's
    attributes as they were; on an open domain it pushes [(r, handle)] at
    [r]'s priority and returns the handle, which is new and unresolved. *)
Theorem enqueue_request_needs_open_domain
    (w : World) (domain : Domain) (request : Request) :
  (pending_requests (self w) !! domain = None →
     result (enqueue_request domain request) w = Raise KeyError ∧
     self (after (enqueue_request domain request) w) = self w) ∧
  (∀ q, pending_requests (self w) !! domain = Some q →
     let dfd := length (deferreds w) in
     result (enqueue_request domain request) w = Ret dfd ∧
     deferreds w !! dfd = None ∧
     deferreds (after (enqueue_request domain request) w) !! dfd
       = Some (mkDeferred false) ∧
     self (after (enqueue_request domain request) w) =
       set_pending_requests
         (<[domain := push (request, dfd) (priority request) q]>
            (pending_requests (self w))) (self w)).
Proof.
  split.
  - intros H. unfold result, after. by rewrite enqueue_request_closed.
  - intros q H dfd. unfold result, after.
    rewrite (enqueue_request_open w domain request q H). cbn.
    split; [done|]. split; [by apply lookup_ge_None_2|].
    split; [|done]. subst dfd. by rewrite lookup_app_r, Nat.sub_diag.
Qed.

Lemma next_request_sentinel_or_pair_witness :
  let w0 := fresh "BFO" in
  let w1 := after (open_domain "example.com") w0 in
  let w2 := after (enqueue_request "example.com" example_request) w1 in
  next_request "example.com" w0 = (Ret (VNone, VNone), w0) ∧
  next_request "example.com" w1 = (Ret (VNone, VNone), w1) ∧
  result (next_request "example.com") w2
    = Ret (VRequest example_request, VDeferred 0%nat).
Proof.
  intros w0 w1 w2.
  destruct (next_request_sentinel_or_pair w0 "example.com") as (H0 & _).
  destruct (next_request_sentinel_or_pair w1 "example.com") as (_ & H1 & _).
  destruct (next_request_sentinel_or_pair w2 "example.com") as (_ & _ & H2 & _).
  split; [apply H0; reflexivity|].
  split; [apply (H1 (PriorityQueue [])); reflexivity|].
  destruct (H2 (PriorityQueue [(example_request, 0%nat, 0)]))
    as (r & h & p & q' & Hpop & Heq); [reflexivity|discriminate|].
  unfold result. rewrite Heq. cbn in Hpop. by simplify_eq.
Defined.

Lemma enqueue_request_needs_open_domain_witness :
  let w0 := fresh "BFO" in
  let w1 := after (open_domain "example.com") w0 in
  (result (enqueue_request "example.com" example_request) w0 = Raise KeyError ∧
   self (after (enqueue_request "example.com" example_request) w0) = self w0) ∧
  (result (enqueue_request "example.com" example_request) w1 = Ret 0%nat ∧
   items <$> pending_requests
     (self (after (enqueue_request "example.com" example_request) w1))
     !! "example.com" = Some [(example_request, 0%nat, 0)]).
Proof.
  intros w0 w1. split.
  - apply (enqueue_request_needs_open_domain w0 "example.com" example_request).
    reflexivity.
  - destruct (enqueue_request_needs_open_domain w1 "example.com" example_request)
      as [_ H].
    destruct (H (PriorityQueue [])) as (Hr & _ & _ & Hs); [reflexivity|].
    split; [exact Hr|]. rewrite Hs. reflexivity.
Defined.

(** C7: [close_domain(D)] deletes [D]'s entry, queue and queued requests
    included, and touches nothing else; it does nothing when [D] has no
    entry. After [open_domain(D)], [enqueue_request(D, r)] and
    [close_domain(D)], [next_request(D)] returns [(None, None)] and
    [domain_is_open(D)] is false. *)
Theorem close_domain_discards_queue
    (w : World) (domain : Domain) (request : Request) :
  close_domain domain w =
    (Ret tt,
     mkWorld (set_pending_requests (delete domain (pending_requests (self w)))
                (self w)) (deferreds w)) ∧
  (pending_requests (self w) !! domain = None →
     close_domain domain w = (Ret tt, w)) ∧
  let w1 := after (open_domain domain) w in
  let w2 := after (enqueue_request domain request) w1 in
  let w3 := after (close_domain domain) w2 in
  result (enqueue_request domain request) w1 = Ret (length (deferreds w)) ∧
  result (next_request domain) w3 = Ret (VNone, VNone) ∧
  result (domain_is_open domain) w3 = Ret false.
Proof.
  split; [apply close_domain_eq|]. split.
  - intros H. rewrite close_domain_eq. unfold set_pending_requests.
    rewrite delete_id by done. by rewrite Scheduler_eta, World_eta.
  - intros w1 w2 w3.
    assert (H1 : pending_requests (self w1) !! domain
                 = Some (if dfo (self w) then PriorityStack [] else PriorityQueue [])).
    { subst w1. unfold after. rewrite open_domain_eq. cbn. apply lookup_insert_eq. }
    assert (H3 : pending_requests (self w3) !! domain = None).
    { subst w3. unfold after at 1. rewrite close_domain_eq. cbn.
      apply lookup_delete_eq. }
    split.
    + unfold result. rewrite (enqueue_request_open w1 domain request _ H1).
      subst w1. unfold after. by rewrite open_domain_eq.
    + split.
      * unfold result. by rewrite next_request_closed.
      * unfold result, domain_is_open. run_m. by rewrite H3.
Qed.

Lemma close_domain_discards_queue_witness :
  close_domain "example.com" (fresh "BFO") = (Ret tt, fresh "BFO").
Proof.
  apply (close_domain_discards_queue (fresh "BFO") "example.com" example_request).
  reflexivity.
Defined.

(** ** Idleness and the truth of [domain_has_pending_requests] *)

(** C8: [is_idle()] is true exactly when [pending_requests] has no entry:
    true on a new scheduler, false right after any [open_domain], true
    again once the only open domain is closed; the pending domains and
    the domain order queue play no part in it. *)
Theorem is_idle_iff_no_open_domain :
  (∀ w, ∃ b, is_idle w = (Ret b, w) ∧
             (b = true ↔ pending_requests (self w) = ∅)) ∧
  (∀ order, result is_idle (fresh order) = Ret true) ∧
  (∀ w d, result is_idle (after (open_domain d) w) = Ret false) ∧
  (∀ w d, dom (pending_requests (self w)) = {[d]} →
          result is_idle (after (close_domain d) w) = Ret true) ∧
  (∀ w pd dq,
     result is_idle
       (mkWorld (set_pending_domains pd (set_domains_queue dq (self w)))
                (deferreds w))
     = result is_idle w).
Proof.
  split; [|split; [|split; [|split]]].
  - intros w. exists (bool_decide (pending_requests (self w) = ∅)).
    split; [apply is_idle_eq|]. apply bool_decide_eq_true.
  - intros order. unfold result. by rewrite is_idle_eq.
  - intros w d. unfold result, after. rewrite is_idle_eq, open_domain_eq. cbn.
    f_equal. apply bool_decide_eq_false_2. apply insert_non_empty.
  - intros w d Hd. unfold result, after. rewrite is_idle_eq, close_domain_eq. cbn.
    f_equal. apply bool_decide_eq_true_2. apply map_eq. intros k.
    rewrite lookup_empty. destruct (decide (k = d)) as [->|Hk].
    + apply lookup_delete_eq.
    + rewrite lookup_delete_ne by done. apply not_elem_of_dom.
      rewrite Hd. set_solver.
  - intros w pd dq. unfold result. by rewrite !is_idle_eq.
Qed.

Lemma is_idle_iff_no_open_domain_witness :
  let w := after (add_domain "pending.org" 3)
             (after (open_domain "example.com") (fresh "BFO")) in
  result is_idle w = Ret false ∧
  result is_idle (after (close_domain "example.com") w) = Ret true.
Proof.
  intros w. destruct is_idle_iff_no_open_domain as (H & _ & _ & Hclose & _).
  split.
  - destruct (H w) as (b & Hb & Hiff). unfold result. rewrite Hb. cbn.
    destruct b; [|done]. destruct Hiff as [Hiff _].
    specialize (Hiff eq_refl). apply (f_equal (lookup "example.com")) in Hiff.
    vm_compute in Hiff. discriminate.
  - apply Hclose. apply leibniz_equiv. intros k. vm_compute. tauto.
Defined.

(** C10, as the code has it: [domain_has_pending_requests(D)] returns
    [True] or [False] according to whether the queue holds an item when
    [D] is open, and [None] when [D] is not open; in all cases the state
    is untouched and the truth value of the result says that [D] is open
    with a non-empty queue. *)
Theorem domain_has_pending_requests_truth (w : World) (domain : Domain) :
  (∀ q, pending_requests (self w) !! domain = Some q →
     domain_has_pending_requests domain w
       = (Ret (VBool (bool_decide (items q ≠ []))), w)) ∧
  (pending_requests (self w) !! domain = None →
     domain_has_pending_requests domain w = (Ret VNone, w)) ∧
  (∃ v, domain_has_pending_requests domain w = (Ret v, w) ∧
        (truthy v = true ↔
         ∃ q, pending_requests (self w) !! domain = Some q ∧ items q ≠ [])).
Proof.
  rewrite domain_has_pending_requests_eq.
  assert (Hnz : ∀ q : Container (Request * Handle),
            nonzero q = bool_decide (items q ≠ [])).
  { intros q. unfold nonzero. by destruct (items q). }
  split; [|split].
  - intros q ->. by rewrite Hnz.
  - by intros ->.
  - eexists; split; [done|].
    destruct (pending_requests (self w) !! domain) as [q|]; cbn.
    + rewrite nonzero_true. split; [eauto|]. by intros (? & [= <-] & ?).
    + split; [done|]. by intros (? & ? & ?).
Qed.

Lemma domain_has_pending_requests_truth_witness :
  let w1 := after (open_domain "example.com") (fresh "BFO") in
  domain_has_pending_requests "example.com" w1 = (Ret (VBool false), w1) ∧
  domain_has_pending_requests "example.com" (fresh "BFO")
    = (Ret VNone, fresh "BFO").
Proof.
  intros w1. split.
  - destruct (domain_has_pending_requests_truth w1 "example.com") as (H & _).
    rewrite (H (PriorityQueue [])); reflexivity.
  - apply (domain_has_pending_requests_truth (fresh "BFO") "example.com").
    reflexivity.
Defined.

(** The result on a domain that is not open is [None], not the boolean
    [False]. *)
Lemma domain_has_pending_requests_not_bool :
  ¬ ∃ b, result (domain_has_pending_requests "example.com") (fresh "BFO")
         = Ret (VBool b).
Proof. intros [b Hb]. vm_compute in Hb. discriminate. Qed.

(** ** Cancelling a pending domain *)

(** C1, evaluated on the code: [remove_pending_domain] returns [None]
    whatever the state, also for a domain that is pending and not open,
    where the docstring promises the number of times it was enqueued. *)
Theorem remove_pending_domain_returns_None :
  (∀ w domain, result (remove_pending_domain domain) w = Ret VNone) ∧
  let w := after (add_domain "example.com" 0) (fresh "BFO") in
  result (domain_is_pending "example.com") w = Ret true ∧
  result (domain_is_open "example.com") w = Ret false ∧
  result (remove_pending_domain "example.com") w = Ret VNone ∧
  result (remove_pending_domain "example.com") w ≠ Ret (VInt 1).
Proof.
  split.
  - intros w domain. unfold result. by rewrite remove_pending_domain_eq.
  - repeat split; try reflexivity. discriminate.
Qed.

(** ** What no method call changes *)

Lemma is_stack_push {A} (x : A) p (c : Container A) :
  is_stack (push x p c) = is_stack c.
Proof. by destruct c. Qed.

Lemma exec_frame (c : call) (w : World) :
  (∃ k, deferreds (exec c w) = deferreds w ++ replicate k (mkDeferred false)) ∧
  dfo (self (exec c w)) = dfo (self w) ∧
  is_stack (domains_queue (self (exec c w))) = is_stack (domains_queue (self w)) ∧
  (per_domain_variant (self w) → per_domain_variant (self (exec c w))).
Proof.
  assert (Hsame : ∀ l : list Deferred,
    (∃ k, l = l ++ replicate k (mkDeferred false))).
  { intros l. exists 0%nat. by rewrite app_nil_r. }
  destruct c as [d|d|d| |d p|d|d r|d|d|d| ]; unfold exec, after.
  - done.
  - done.
  - rewrite domain_has_pending_requests_eq. done.
  - rewrite next_domain_eq.
    destruct (bool_decide (pending_domains (self w) = ∅)); [done|].
    destruct (pop (domains_queue (self w))) as [[[x p] dq']|e] eqn:Hpop; [|done].
    apply pop_inl in Hpop as [_ Hst].
    by destruct (bool_decide (x ∈ pending_domains (self w))); cbn.
  - destruct (decide (d ∈ pending_domains (self w))) as [Hd|Hd].
    + by rewrite add_domain_pending.
    + rewrite add_domain_new by done. cbn. by rewrite is_stack_push.
  - rewrite open_domain_eq. cbn. repeat split; [done|].
    intros Hv. apply map_Forall_insert_2; [|done]. cbn.
    by destruct (dfo (self w)).
  - destruct (pending_requests (self w) !! d) as [q|] eqn:Hq.
    + rewrite (enqueue_request_open w d r q Hq). cbn.
      split; [by exists 1%nat|]. repeat split.
      intros Hv. apply map_Forall_insert_2; [|done]. cbn.
      rewrite is_stack_push. by apply (Hv d).
    + rewrite enqueue_request_closed by done. cbn. split; [by exists 1%nat|done].
  - destruct (pending_requests (self w) !! d) as [q|] eqn:Hq.
    + destruct (pop q) as [[[[r h] p] q']|e] eqn:Hpop.
      * rewrite (next_request_pop w d q r h p q') by done. cbn.
        repeat split; [done|]. intros Hv. apply map_Forall_insert_2; [|done].
        cbn. apply pop_inl in Hpop as [_ ->]. by apply (Hv d).
      * assert (items q = []) by (by destruct q as [[|]|[|]]).
        by rewrite (next_request_empty w d q).
    + by rewrite next_request_closed.
  - rewrite close_domain_eq. cbn. repeat split; [done|].
    intros Hv. by apply map_Forall_delete.
  - rewrite remove_pending_domain_eq. cbn.
    by destruct (_ && _); cbn.
  - by rewrite is_idle_eq.
Qed.

Lemma exec_all_snoc cs c w : exec_all (cs ++ [c]) w = exec c (exec_all cs w).
Proof. unfold exec_all. by rewrite foldl_app. Qed.

Lemma exec_all_frame (cs : list call) (w : World) :
  (∃ k, deferreds (exec_all cs w) = deferreds w ++ replicate k (mkDeferred false)) ∧
  dfo (self (exec_all cs w)) = dfo (self w) ∧
  is_stack (domains_queue (self (exec_all cs w)))
    = is_stack (domains_queue (self w)) ∧
  (per_domain_variant (self w) → per_domain_variant (self (exec_all cs w))).
Proof.
  induction cs as [|c cs IH] using rev_ind.
  - repeat split; [|done]. exists 0%nat. by rewrite app_nil_r.
  - rewrite exec_all_snoc.
    destruct IH as ([k Hk] & Hd & Hq & Hv).
    destruct (exec_frame c (exec_all cs w)) as ([k' Hk'] & Hd' & Hq' & Hv').
    split; [|split; [congruence|split; [congruence|auto]]].
    exists (k + k')%nat. by rewrite Hk', Hk, <- app_assoc, replicate_add.
Qed.

Lemma exec_all_keeps_deferred (cs : list call) (w : World) h d :
  deferreds w !! h = Some d → deferreds (exec_all cs w) !! h = Some d.
Proof.
  intros H. destruct (exec_all_frame cs w) as ([k ->] & _).
  by apply lookup_app_l_Some.
Qed.

(** ** The pending-result handle *)

(** C3, as the code has it: the handle returned by [enqueue_request] on an
    open domain is new and unresolved, and no method of the scheduler
    resolves it: it is still unresolved after any sequence of calls that
    follows, the [next_request] that dequeues its request included. *)
Theorem scheduler_never_resolves_handle
    (w : World) (domain : Domain) (request : Request)
    (q : Container (Request * Handle)) :
  pending_requests (self w) !! domain = Some q →
  let dfd := length (deferreds w) in
  let w1 := after (enqueue_request domain request) w in
  result (enqueue_request domain request) w = Ret dfd ∧
  deferreds w !! dfd = None ∧
  ∀ cs, called <$> deferreds (exec_all cs w1) !! dfd = Some false.
Proof.
  intros Hq dfd w1. subst w1. unfold result, after.
  rewrite (enqueue_request_open w domain request q Hq). cbn.
  split; [done|]. split; [by apply lookup_ge_None_2|].
  intros cs. rewrite (exec_all_keeps_deferred _ _ _ (mkDeferred false)); [done|].
  cbn. subst dfd. by rewrite lookup_app_r, Nat.sub_diag.
Qed.

Lemma scheduler_never_resolves_handle_witness :
  let w := after (open_domain "example.com") (fresh "BFO") in
  let w1 := after (enqueue_request "example.com" example_request) w in
  result (enqueue_request "example.com" example_request) w = Ret 0%nat ∧
  called <$> deferreds (exec_all [Call_next_request "example.com";
                                  Call_close_domain "example.com"] w1) !! 0%nat
    = Some false.
Proof.
  intros w w1.
  destruct (scheduler_never_resolves_handle w "example.com" example_request
              (PriorityQueue [])) as (Hr & _ & Hc); [reflexivity|].
  split; [exact Hr|]. apply Hc.
Defined.

(** [next_request] hands out the pair and the handle has received no
    resolution. *)
Lemma next_request_does_not_resolve :
  let w1 := after (open_domain "example.com") (fresh "BFO") in
  let w2 := after (enqueue_request "example.com" example_request) w1 in
  let w3 := after (next_request "example.com") w2 in
  result (enqueue_request "example.com" example_request) w1 = Ret 0%nat ∧
  result (next_request "example.com") w2
    = Ret (VRequest example_request, VDeferred 0%nat) ∧
  called <$> deferreds w3 !! 0%nat ≠ Some true.
Proof. repeat split. vm_compute. discriminate. Qed.

(** ** The queue discipline *)

(** C9: the flag read at construction never changes; the domain order
    queue is a [PriorityQueue] whatever the flag; every per-domain queue
    is a [PriorityStack] when the flag is set and a [PriorityQueue]
    otherwise; and [open_domain(D)] installs an empty container of that
    variant for [D], in place of any earlier one, and touches no other
    entry. *)
Theorem queue_discipline_fixed_at_construction
    (order : string) (store : list Deferred) (cs : list call) :
  let w := exec_all cs (mkWorld (__init__ order) store) in
  dfo (self w) = String.eqb (upper order) "DFO" ∧
  is_stack (domains_queue (self w)) = false ∧
  (∀ d q, pending_requests (self w) !! d = Some q → is_stack q = dfo (self w)) ∧
  (∀ d, pending_requests (self (after (open_domain d) w)) !! d
        = Some (if dfo (self w) then PriorityStack [] else PriorityQueue [])) ∧
  (∀ d d', d ≠ d' →
        pending_requests (self (after (open_domain d) w)) !! d'
        = pending_requests (self w) !! d').
Proof.
  intros w.
  destruct (exec_all_frame cs (mkWorld (__init__ order) store))
    as (_ & Hd & Hq & Hv).
  fold w in Hd, Hq, Hv. split; [exact Hd|]. split; [exact Hq|]. split.
  - intros d q Hdq. apply (Hv (map_Forall_empty _) d q Hdq).
  - unfold after. split; intros d.
    + rewrite open_domain_eq. cbn. apply lookup_insert_eq.
    + intros d' Hne. rewrite open_domain_eq. cbn. by apply lookup_insert_ne.
Qed.

Lemma queue_discipline_fixed_at_construction_witness :
  let w := exec_all [Call_open_domain "example.com";
                     Call_enqueue_request "example.com" example_request]
             (fresh "dfo") in
  dfo (self w) = true ∧
  is_stack <$> pending_requests (self w) !! "example.com" = Some true ∧
  pending_requests (self (after (open_domain "example.com") w)) !! "example.com"
    = Some (PriorityStack []).
Proof.
  intros w.
  destruct (queue_discipline_fixed_at_construction "dfo" []
              [Call_open_domain "example.com";
               Call_enqueue_request "example.com" example_request])
    as (Hd & _ & Hv & Hopen & _).
  fold (fresh "dfo") in Hd, Hv, Hopen. fold w in Hd, Hv, Hopen.
  split; [exact Hd|]. split.
  - assert (E : pending_requests (self w) !! "example.com"
                = Some (PriorityStack [(example_request, 0%nat, 0)]))
      by reflexivity.
    rewrite E. apply (f_equal Some).
    transitivity (dfo (self w)); [exact (Hv _ _ E)|exact Hd].
  - rewrite Hopen, Hd. reflexivity.
Defined.

(** ** The pending domains and the domain order queue *)

Lemma place_perm {A} ahead (x : A) p l : place ahead x p l ≡ₚ (x, p) :: l.
Proof.
  induction l as [|[y q] l IH]; simpl; [done|].
  destruct (ahead q p); [|done]. rewrite IH. apply perm_swap.
Qed.

Lemma items_push {A} (x : A) p (c : Container A) :
  items (push x p c) ≡ₚ (x, p) :: items c.
Proof. destruct c; apply place_perm. Qed.

Lemma init_in_sync order : in_sync (__init__ order).
Proof.
  split; [apply NoDup_nil_2|]. intros d. unfold queued_domains. cbn.
  set_solver.
Qed.

Lemma add_domain_in_sync w d p :
  in_sync (self w) → in_sync (self (after (add_domain d p) w)).
Proof.
  intros [Hnd Hmem]. unfold after.
  destruct (decide (d ∈ pending_domains (self w))) as [Hd|Hd].
  { by rewrite add_domain_pending. }
  rewrite add_domain_new by done. cbn.
  assert (Hp : queued_domains
                 (mkScheduler (pending_domains (self w) ∪ {[d]})
                    (push d p (domains_queue (self w)))
                    (pending_requests (self w)) (dfo (self w)))
               ≡ₚ d :: queued_domains (self w)).
  { unfold queued_domains. cbn. by rewrite items_push. }
  split.
  - rewrite Hp. apply NoDup_cons. split; [|done]. by rewrite Hmem.
  - intros x. rewrite Hp, elem_of_cons, Hmem. cbn [pending_domains].
    rewrite elem_of_union, elem_of_singleton. tauto.
Qed.

Lemma next_domain_in_sync w :
  in_sync (self w) →
  in_sync (self (after next_domain w)) ∧ ∃ v, result next_domain w = Ret v.
Proof.
  intros Hs. pose proof Hs as [Hnd Hmem].
  unfold after, result. rewrite next_domain_eq.
  case_bool_decide as Hempty; [cbn; by eauto|].
  destruct (pop (domains_queue (self w))) as [[[d p] dq']|e] eqn:Hpop.
  - apply pop_inl in Hpop as [Hitems _].
    assert (Hq : queued_domains (self w) = d :: (items dq').*1).
    { unfold queued_domains. by rewrite Hitems. }
    rewrite Hq in Hnd, Hmem. apply NoDup_cons in Hnd as [Hd Hnd].
    rewrite bool_decide_eq_true_2 by (apply Hmem; left). cbn.
    split; [|by eauto]. split; [done|]. intros x. unfold queued_domains. cbn.
    specialize (Hmem x). rewrite elem_of_cons in Hmem.
    rewrite elem_of_difference, elem_of_singleton. split.
    + intros Hx. split; [tauto|]. by intros ->.
    + intros [Hx Hne]. tauto.
  - exfalso. assert (Hi : items (domains_queue (self w)) = []).
    { by destruct (domains_queue (self w)) as [[|]|[|]]. }
    apply Hempty. apply leibniz_equiv. intros x. rewrite <- Hmem.
    unfold queued_domains. rewrite Hi. set_solver.
Qed.

Lemma add_calls_in_sync adds w :
  in_sync (self w) → in_sync (self (exec_all (add_calls adds) w)).
Proof.
  revert w. induction adds as [|[d p] adds IH]; intros w H; [done|].
  apply IH. by apply add_domain_in_sync.
Qed.

Lemma add_calls_pending adds w :
  pending_domains (self (exec_all (add_calls adds) w))
  = pending_domains (self w) ∪ list_to_set adds.*1.
Proof.
  revert w. induction adds as [|[d p] adds IH]; intros w.
  - cbn. set_solver.
  - change (exec_all (add_calls ((d, p) :: adds)) w)
      with (exec_all (add_calls adds) (after (add_domain d p) w)).
    rewrite IH. unfold after.
    destruct (decide (d ∈ pending_domains (self w))) as [Hd|Hd].
    + rewrite add_domain_pending by done. cbn. set_solver.
    + rewrite add_domain_new by done. cbn. set_solver.
Qed.

(** C5: [add_domain] on a domain that is already pending changes nothing
    at all; and after any sequence of [add_domain] calls the pending
    domains are the domains added, each held once by the domain order
    queue. *)
Theorem add_domain_idempotent_no_duplicates :
  (∀ w domain prio, domain ∈ pending_domains (self w) →
     add_domain domain prio w = (Ret tt, w)) ∧
  (∀ w adds, in_sync (self w) →
     in_sync (self (exec_all (add_calls adds) w))) ∧
  (∀ order adds,
     let w := exec_all (add_calls adds) (fresh order) in
     pending_domains (self w) = list_to_set adds.*1 ∧
     NoDup (queued_domains (self w)) ∧
     queued_domains (self w) ≡ₚ elements (pending_domains (self w))).
Proof.
  split; [apply add_domain_pending|]. split.
  - intros w adds. apply add_calls_in_sync.
  - intros order adds w.
    destruct (add_calls_in_sync adds (fresh order) (init_in_sync order))
      as [Hnd Hmem]. fold w in Hnd, Hmem.
    split; [|split; [done|]].
    + subst w. rewrite add_calls_pending. cbn. apply leibniz_equiv.
      apply (left_id ∅ (∪)).
    + apply NoDup_Permutation; [done|apply NoDup_elements|].
      intros d. by rewrite Hmem, elem_of_elements.
Qed.

Lemma add_domain_idempotent_no_duplicates_witness :
  let w := after (add_domain "example.com" 1) (fresh "BFO") in
  add_domain "example.com" 7 w = (Ret tt, w) ∧
  in_sync (self (exec_all (add_calls [("example.com", 7); ("other.org", 2)]) w)).
Proof.
  intros w. destruct add_domain_idempotent_no_duplicates as (Hidem & Hsync & _).
  split.
  - apply Hidem. apply (bool_decide_unpack _). vm_compute. exact I.
  - apply Hsync. split.
    + apply (bool_decide_unpack _). vm_compute. exact I.
    + intros d.
      replace (queued_domains (self w)) with ["example.com"] by reflexivity.
      replace (pending_domains (self w)) with ({["example.com"]} : gset string)
        by reflexivity.
      by rewrite list_elem_of_singleton, elem_of_singleton.
Defined.

Lemma in_sync_set_pending_requests x s :
  in_sync (set_pending_requests x s) ↔ in_sync s.
Proof. done. Qed.

(** Every call other than [remove_pending_domain] keeps the two in step. *)
Lemma exec_in_sync (c : call) (w : World) :
  (∀ d, c ≠ Call_remove_pending_domain d) →
  in_sync (self w) → in_sync (self (exec c w)).
Proof.
  intros Hc Hs.
  destruct c as [d|d|d| |d p|d|d r|d|d|d| ]; unfold exec.
  - done.
  - done.
  - unfold after. by rewrite domain_has_pending_requests_eq.
  - by apply next_domain_in_sync.
  - by apply add_domain_in_sync.
  - unfold after. by rewrite open_domain_eq.
  - unfold after. destruct (pending_requests (self w) !! d) as [q|] eqn:Hq.
    + by rewrite (enqueue_request_open w d r q Hq).
    + by rewrite enqueue_request_closed.
  - unfold after. destruct (pending_requests (self w) !! d) as [q|] eqn:Hq.
    + destruct (pop q) as [[[[r h] p] q']|e] eqn:Hpop.
      * by rewrite (next_request_pop w d q r h p q').
      * assert (items q = []) by (by destruct q as [[|]|[|]]).
        by rewrite (next_request_empty w d q).
    + by rewrite next_request_closed.
  - done.
  - by destruct (Hc d).
  - unfold after. by rewrite is_idle_eq.
Qed.

(** Cancelling a pending domain that is not open always breaks it. *)
Lemma remove_pending_domain_out_of_sync (w : World) (d : Domain) :
  in_sync (self w) → d ∈ pending_domains (self w) →
  pending_requests (self w) !! d = None →
  let w' := after (remove_pending_domain d) w in
  (d ∉ pending_domains (self w')) ∧ (d ∈ queued_domains (self w')) ∧
  ¬ in_sync (self w').
Proof.
  intros [_ Hmem] Hd Hclosed w'. subst w'. unfold after.
  rewrite remove_pending_domain_eq, Hclosed.
  rewrite bool_decide_eq_true_2 by done.
  rewrite bool_decide_eq_false_2 by (by intros [? ?]). cbn.
  assert (Hout : d ∉ pending_domains (self w) ∖ {[d]}).
  { rewrite elem_of_difference, elem_of_singleton. tauto. }
  assert (Hin : d ∈ queued_domains (self w)) by by apply Hmem.
  split; [done|]. split; [done|]. intros [_ Hmem']. by apply Hout, Hmem'.
Qed.

(** C2, evaluated on the code: [remove_pending_domain] takes the domain
    out of [pending_domains] and leaves its entry in [domains_queue], so
    the two no longer agree, and the next [next_domain] that pops the
    entry raises [KeyError]. *)
Theorem remove_pending_domain_leaves_queue_entry :
  let w1 := after (add_domain "example.com" 0) (fresh "BFO") in
  let w2 := after (remove_pending_domain "example.com") w1 in
  in_sync (self w1) ∧
  ("example.com" ∉ pending_domains (self w2)) ∧
  ("example.com" ∈ queued_domains (self w2)) ∧
  ¬ in_sync (self w2) ∧
  result next_domain (after (add_domain "other.org" 0) w2) = Raise KeyError.
Proof.
  intros w1 w2.
  assert (Hout : "example.com" ∉ pending_domains (self w2)).
  { intros H. apply (bool_decide_pack _) in H. vm_compute in H. exact H. }
  assert (Hin : "example.com" ∈ queued_domains (self w2)).
  { apply (bool_decide_unpack _). vm_compute. exact I. }
  split; [|split; [done|split; [done|split]]].
  - apply (add_domain_in_sync (fresh "BFO")), init_in_sync.
  - intros [_ Hmem]. by apply Hout, Hmem.
  - reflexivity.
Qed.

(** * Further properties of the scheduler *)

(** ** Guards and the calls they protect *)

Lemma domain_is_open_eq w domain :
  domain_is_open domain w
  = (Ret (bool_decide (is_Some (pending_requests (self w) !! domain))), w).
Proof. done. Qed.

Lemma domain_is_pending_eq w domain :
  domain_is_pending domain w
  = (Ret (bool_decide (domain ∈ pending_domains (self w))), w).
Proof. done. Qed.

(** X1: [domain_is_open(D)] tells whether [enqueue_request(D, r)] returns
    a handle or raises [KeyError], and the truth value of
    [domain_has_pending_requests(D)] tells whether [next_request(D)]
    returns a request or the pair [(None, None)]. *)
Theorem guards_predict_outcomes (w : World) (domain : Domain) (request : Request) :
  (result (domain_is_open domain) w = Ret true ↔
     ∃ h, result (enqueue_request domain request) w = Ret h) ∧
  (result (domain_is_open domain) w = Ret false ↔
     result (enqueue_request domain request) w = Raise KeyError) ∧
  (∃ v, result (domain_has_pending_requests domain) w = Ret v ∧
     (truthy v = true ↔
        ∃ r h, result (next_request domain) w = Ret (VRequest r, VDeferred h)) ∧
     (truthy v = false ↔
        result (next_request domain) w = Ret (VNone, VNone))).
Proof.
  unfold result. rewrite domain_is_open_eq, domain_has_pending_requests_eq. cbn.
  destruct (pending_requests (self w) !! domain) as [q|] eqn:Hq.
  - rewrite (enqueue_request_open w domain request q Hq). cbn.
    split; [split; eauto|]. split; [split; discriminate|].
    eexists; split; [done|]. cbn.
    destruct (items q) as [|e l] eqn:Hi.
    + rewrite (next_request_empty w domain q Hq Hi). cbn.
      unfold nonzero. rewrite Hi.
      split; [split; [discriminate|by intros (? & ? & ?)]|done].
    + destruct (pop_nonempty q) as ([[r h] p] & q' & Hpop & _); [by rewrite Hi|].
      rewrite (next_request_pop w domain q r h p q' Hq Hpop). cbn.
      unfold nonzero. rewrite Hi.
      split; [split; eauto|split; discriminate].
  - rewrite (enqueue_request_closed w domain request Hq). cbn.
    split; [split; [discriminate|by intros [? ?]]|]. split; [done|].
    eexists; split; [done|]. cbn. rewrite (next_request_closed w domain Hq). cbn.
    split; [split; [discriminate|by intros (? & ? & ?)]|done].
Qed.

Lemma guards_predict_outcomes_witness :
  let w := after (enqueue_request "example.com" example_request)
             (after (open_domain "example.com") (fresh "BFO")) in
  (∃ h, result (enqueue_request "example.com" R1) w = Ret h) ∧
  result (enqueue_request "other.org" R1) w = Raise KeyError.
Proof.
  intros w.
  destruct (guards_predict_outcomes w "example.com" R1) as ([H1 _] & _).
  destruct (guards_predict_outcomes w "other.org" R1) as (_ & [H2 _] & _).
  split; [apply H1; reflexivity|apply H2; reflexivity].
Defined.

(** ** Opening and closing *)

(** X2: closing a domain right after opening it restores the scheduler
    when the domain was not open before; [close_domain] and
    [open_domain] are idempotent, and each overrides the other. *)
Theorem open_close_round_trip (w : World) (domain : Domain) :
  (pending_requests (self w) !! domain = None →
     after (close_domain domain) (after (open_domain domain) w) = w) ∧
  after (close_domain domain) (after (close_domain domain) w)
    = after (close_domain domain) w ∧
  after (open_domain domain) (after (open_domain domain) w)
    = after (open_domain domain) w ∧
  after (close_domain domain) (after (open_domain domain) w)
    = after (close_domain domain) w ∧
  after (open_domain domain) (after (close_domain domain) w)
    = after (open_domain domain) w.
Proof.
  unfold after. rewrite !open_domain_eq, !close_domain_eq. cbn.
  unfold set_pending_requests. cbn.
  rewrite delete_delete_eq, insert_insert_eq, delete_insert_eq, insert_delete_eq.
  repeat split. intros H. rewrite delete_id by done.
  by rewrite Scheduler_eta, World_eta.
Qed.

Lemma open_close_round_trip_witness :
  let w := after (add_domain "example.com" 2) (fresh "DFO") in
  after (close_domain "example.com") (after (open_domain "example.com") w) = w.
Proof.
  intros w. destruct (open_close_round_trip w "example.com") as [H _].
  apply H. reflexivity.
Defined.

(** ** Admission and request queues keep apart *)

Lemma next_request_result w d :
  result (next_request d) w =
    Ret (match pending_requests (self w) !! d with
         | Some q => match pop q with
                     | inl (e, _) => entry_value e
                     | inr _ => (VNone, VNone)
                     end
         | None => (VNone, VNone)
         end).
Proof.
  unfold result. destruct (pending_requests (self w) !! d) as [q|] eqn:Hq.
  - destruct (pop q) as [[[[r h] p] q']|e] eqn:Hpop.
    + by rewrite (next_request_pop w d q r h p q').
    + assert (items q = []) by (by destruct q as [[|]|[|]]).
      by rewrite (next_request_empty w d q).
  - by rewrite next_request_closed.
Qed.

Lemma exec_lookup_other (c : call) (w : World) (d' : Domain) :
  request_domain c ≠ Some d' →
  pending_requests (self (exec c w)) !! d' = pending_requests (self w) !! d'.
Proof.
  intros Hd'.
  destruct c as [d|d|d| |d p|d|d r|d|d|d| ]; unfold exec, after; cbn in Hd'.
  - done.
  - done.
  - by rewrite domain_has_pending_requests_eq.
  - rewrite next_domain_eq. case_bool_decide; [done|].
    destruct (pop (domains_queue (self w))) as [[[x p] dq']|e]; [|done].
    by case_bool_decide.
  - destruct (decide (d ∈ pending_domains (self w))).
    + by rewrite add_domain_pending.
    + by rewrite add_domain_new.
  - rewrite open_domain_eq. cbn. apply lookup_insert_ne. congruence.
  - destruct (pending_requests (self w) !! d) as [q|] eqn:Hq.
    + rewrite (enqueue_request_open w d r q Hq). cbn.
      apply lookup_insert_ne. congruence.
    + by rewrite enqueue_request_closed.
  - destruct (pending_requests (self w) !! d) as [q|] eqn:Hq.
    + destruct (pop q) as [[[[r h] p] q']|e] eqn:Hpop.
      * rewrite (next_request_pop w d q r h p q') by done. cbn.
        apply lookup_insert_ne. congruence.
      * assert (items q = []) by (by destruct q as [[|]|[|]]).
        by rewrite (next_request_empty w d q).
    + by rewrite next_request_closed.
  - rewrite close_domain_eq. cbn. apply lookup_delete_ne. congruence.
  - rewrite remove_pending_domain_eq. cbn. by destruct (_ && _).
  - by rewrite is_idle_eq.
Qed.

Lemma exec_keeps_admission (c : call) (w : World) :
  admission_call c = false →
  pending_domains (self (exec c w)) = pending_domains (self w) ∧
  domains_queue (self (exec c w)) = domains_queue (self w).
Proof.
  intros Hc.
  destruct c as [d|d|d| |d p|d|d r|d|d|d| ]; unfold exec, after;
    try discriminate Hc.
  - done.
  - done.
  - by rewrite domain_has_pending_requests_eq.
  - by rewrite open_domain_eq.
  - destruct (pending_requests (self w) !! d) as [q|] eqn:Hq.
    + by rewrite (enqueue_request_open w d r q Hq).
    + by rewrite enqueue_request_closed.
  - destruct (pending_requests (self w) !! d) as [q|] eqn:Hq.
    + destruct (pop q) as [[[[r h] p] q']|e] eqn:Hpop.
      * by rewrite (next_request_pop w d q r h p q').
      * assert (items q = []) by (by destruct q as [[|]|[|]]).
        by rewrite (next_request_empty w d q).
    + by rewrite next_request_closed.
  - done.
  - by rewrite is_idle_eq.
Qed.

(** X3: a call leaves the request queue of every domain other than the
    one it is made for as it was, so that what [next_request] and
    [domain_has_pending_requests] answer for those domains does not
    change; and only [next_domain], [add_domain] and
    [remove_pending_domain] touch the pending domains and the domain
    order queue. *)
Theorem calls_touch_only_their_domain (c : call) (w : World) :
  (∀ d', request_domain c ≠ Some d' →
     pending_requests (self (exec c w)) !! d' = pending_requests (self w) !! d' ∧
     result (next_request d') (exec c w) = result (next_request d') w ∧
     result (domain_has_pending_requests d') (exec c w)
       = result (domain_has_pending_requests d') w) ∧
  (admission_call c = false →
     pending_domains (self (exec c w)) = pending_domains (self w) ∧
     domains_queue (self (exec c w)) = domains_queue (self w)).
Proof.
  split; [|apply exec_keeps_admission].
  intros d' Hd'. pose proof (exec_lookup_other c w d' Hd') as Hlook.
  split; [done|].
  rewrite !next_request_result. unfold result.
  rewrite !domain_has_pending_requests_eq. cbn. by rewrite Hlook.
Qed.

Lemma calls_touch_only_their_domain_witness :
  let w := after (enqueue_request "example.com" example_request)
             (after (open_domain "example.com") (fresh "BFO")) in
  result (next_request "example.com") (exec (Call_close_domain "other.org") w)
    = result (next_request "example.com") w ∧
  pending_domains (self (exec (Call_open_domain "other.org") w))
    = pending_domains (self w).
Proof.
  intros w.
  destruct (calls_touch_only_their_domain (Call_close_domain "other.org") w)
    as [H1 _].
  destruct (calls_touch_only_their_domain (Call_open_domain "other.org") w)
    as [_ H2].
  split.
  - apply (H1 "example.com"). discriminate.
  - apply H2. reflexivity.
Defined.

(** X4: after [remove_pending_domain(D)], [D] is pending exactly when it
    was pending and open before; the other domains are pending as
    before, and the domain order queue, the request queues and the store
    are as they were. *)
Theorem remove_pending_domain_effect (w : World) (d : Domain) :
  let w' := after (remove_pending_domain d) w in
  (∃ bp bo, result (domain_is_pending d) w = Ret bp ∧
            result (domain_is_open d) w = Ret bo ∧
            result (domain_is_pending d) w' = Ret (bp && bo)) ∧
  (∀ d', d' ≠ d →
     result (domain_is_pending d') w' = result (domain_is_pending d') w) ∧
  domains_queue (self w') = domains_queue (self w) ∧
  pending_requests (self w') = pending_requests (self w) ∧
  deferreds w' = deferreds w.
Proof.
  intros w'. subst w'. unfold after, result.
  rewrite remove_pending_domain_eq, !domain_is_pending_eq, domain_is_open_eq.
  cbn [fst snd].
  destruct (bool_decide (d ∈ pending_domains (self w))) eqn:Hp;
    destruct (bool_decide (is_Some (pending_requests (self w) !! d))) eqn:Ho;
    cbn [andb negb self deferreds set_pending_domains pending_domains
         domains_queue pending_requests].
  all: split; [eexists _, _; split; [done|split; [done|]]|].
  all: try (rewrite Hp; done).
  all: try (split; [intros d' Hd'; by rewrite domain_is_pending_eq|done]).
  - f_equal. apply bool_decide_eq_false_2.
    rewrite elem_of_difference, elem_of_singleton. tauto.
  - split; [|done]. intros d' Hd'. rewrite ?domain_is_pending_eq. cbn.
    f_equal. apply bool_decide_ext.
    rewrite elem_of_difference, elem_of_singleton. tauto.
Qed.

Lemma remove_pending_domain_effect_witness :
  let w := after (add_domain "other.org" 1)
             (after (add_domain "example.com" 0) (fresh "BFO")) in
  result (domain_is_pending "other.org")
         (after (remove_pending_domain "example.com") w)
  = result (domain_is_pending "other.org") w.
Proof.
  intros w. destruct (remove_pending_domain_effect w "example.com") as (_ & H & _).
  apply H. discriminate.
Defined.

(** X5: [open_domain] does not take the domain out of the pending
    domains: a domain added and then opened is both pending and open,
    and [remove_pending_domain] then leaves everything as it is. *)
Theorem domain_can_be_pending_and_open (w : World) (d : Domain) (p : Z) :
  let w' := after (open_domain d) (after (add_domain d p) w) in
  result (domain_is_pending d) w' = Ret true ∧
  result (domain_is_open d) w' = Ret true ∧
  remove_pending_domain d w' = (Ret VNone, w').
Proof.
  intros w'.
  assert (Hp : d ∈ pending_domains (self w')).
  { subst w'. unfold after. rewrite open_domain_eq. cbn.
    destruct (decide (d ∈ pending_domains (self w))) as [Hd|Hd].
    - by rewrite add_domain_pending.
    - rewrite add_domain_new by done. cbn. set_solver. }
  assert (Ho : is_Some (pending_requests (self w') !! d)).
  { subst w'. unfold after. rewrite open_domain_eq. cbn.
    rewrite lookup_insert_eq. eauto. }
  unfold result. rewrite domain_is_pending_eq, domain_is_open_eq,
    remove_pending_domain_eq. cbn.
  by rewrite !bool_decide_eq_true_2.
Qed.

(** ** Handing out the pending domains *)

Lemma next_domain_none w :
  pending_domains (self w) = ∅ → next_domain w = (Ret VNone, w).
Proof. intros H. rewrite next_domain_eq. by rewrite bool_decide_eq_true_2. Qed.

Lemma next_domain_step w d rest :
  in_sync (self w) → queued_domains (self w) = d :: rest →
  ∃ w', next_domain w = (Ret (VStr d), w') ∧
        in_sync (self w') ∧
        queued_domains (self w') = rest ∧
        pending_domains (self w') = pending_domains (self w) ∖ {[d]} ∧
        d ∈ pending_domains (self w) ∧ d ∉ rest.
Proof.
  intros Hs Hq. pose proof Hs as [Hnd Hmem].
  assert (Hd : d ∈ pending_domains (self w)).
  { apply Hmem. rewrite Hq. left. }
  assert (Hrest : d ∉ rest).
  { rewrite Hq in Hnd. by apply NoDup_cons in Hnd as [? _]. }
  destruct (next_domain_in_sync w Hs) as [Hs' _].
  unfold after in Hs'. rewrite next_domain_eq in Hs' |- *.
  rewrite bool_decide_eq_false_2 in Hs' |- * by set_solver.
  destruct (pop_nonempty (domains_queue (self w))) as ([x p] & dq' & Hpop & Hi & _).
  { intros Hnil. unfold queued_domains in Hq. by rewrite Hnil in Hq. }
  unfold queued_domains in Hq. rewrite Hi in Hq. cbn in Hq.
  injection Hq as -> Hq.
  rewrite Hpop in Hs' |- *.
  rewrite bool_decide_eq_true_2 in Hs' |- * by done.
  eexists. split; [done|]. cbn in Hs' |- *. done.
Qed.

(** X6: in a scheduler whose domain order queue agrees with its pending
    domains, [next_domain()] returns [None] and changes nothing when no
    domain is pending; otherwise it returns the domain at the head of the
    queue, which was pending, and takes it out of both, so that the two
    still agree. *)
Theorem next_domain_claims_a_pending_domain (w : World) :
  in_sync (self w) →
  (pending_domains (self w) = ∅ → next_domain w = (Ret VNone, w)) ∧
  (pending_domains (self w) ≠ ∅ →
     ∃ d rest, queued_domains (self w) = d :: rest ∧
       result next_domain w = Ret (VStr d) ∧
       d ∈ pending_domains (self w) ∧
       pending_domains (self (after next_domain w))
         = pending_domains (self w) ∖ {[d]} ∧
       queued_domains (self (after next_domain w)) = rest ∧
       (d ∉ rest) ∧
       in_sync (self (after next_domain w))).
Proof.
  intros Hs. split; [apply next_domain_none|]. intros Hne.
  destruct (queued_domains (self w)) as [|d rest] eqn:Hq.
  - exfalso. apply Hne. apply leibniz_equiv. intros x.
    destruct Hs as [_ Hmem]. rewrite <- Hmem, Hq. set_solver.
  - destruct (next_domain_step w d rest Hs Hq) as (w' & Hn & Hs' & Hq' & Hp & Hd & Hr).
    exists d, rest. unfold result, after. rewrite Hn. done.
Qed.

Lemma next_domain_claims_a_pending_domain_witness :
  let w := after (add_domain "other.org" 0)
             (after (add_domain "example.com" 0) (fresh "BFO")) in
  ∃ d rest, queued_domains (self w) = d :: rest ∧
            result next_domain w = Ret (VStr d) ∧
            queued_domains (self (after next_domain w)) = rest.
Proof.
  intros w. destruct (next_domain_claims_a_pending_domain w) as [_ H].
  - split.
    + apply (bool_decide_unpack _). vm_compute. exact I.
    + intros d.
      replace (queued_domains (self w)) with ["example.com"; "other.org"]
        by reflexivity.
      replace (pending_domains (self w))
        with ({["example.com"; "other.org"]} : gset string) by reflexivity.
      rewrite !elem_of_cons, elem_of_nil, elem_of_union, !elem_of_singleton.
      tauto.
  - destruct H as (d & rest & Hq & Hr & _ & _ & Hq' & _).
    + intros He. apply (f_equal (fun s => bool_decide ("example.com" ∈ s))) in He.
      vm_compute in He. discriminate.
    + exists d, rest. split; [exact Hq|]. split; [exact Hr|exact Hq'].
Defined.

(** X7: when nothing is pending, [add_domain(D, p)] followed by
    [next_domain()] returns [D] and leaves the scheduler as it was before
    the two calls. *)
Theorem add_domain_next_domain_round_trip (w : World) (d : Domain) (p : Z) :
  in_sync (self w) → pending_domains (self w) = ∅ →
  let w1 := after (add_domain d p) w in
  result next_domain w1 = Ret (VStr d) ∧ after next_domain w1 = w.
Proof.
  intros [_ Hmem] Hp w1.
  assert (Hi : items (domains_queue (self w)) = []).
  { destruct (items (domains_queue (self w))) as [|[x q] l] eqn:E; [done|].
    exfalso. apply (not_elem_of_empty (C:=gset string) x). rewrite <- Hp.
    apply Hmem. unfold queued_domains. rewrite E. left. }
  subst w1. unfold result, after.
  rewrite add_domain_new by (rewrite Hp; set_solver).
  rewrite next_domain_eq. cbn [self pending_domains domains_queue].
  rewrite bool_decide_eq_false_2 by (rewrite Hp; set_solver).
  destruct w as [[pd dq pr f] ds]. cbn in *. subst pd.
  destruct dq as [l|l]; cbn in Hi; subst l; cbn.
  all: rewrite bool_decide_eq_true_2 by set_solver; cbn.
  all: split; [done|]; do 2 f_equal; set_solver.
Qed.

Lemma add_domain_next_domain_round_trip_witness :
  let w := after (open_domain "other.org") (fresh "BFO") in
  let w1 := after (add_domain "example.com" 4) w in
  result next_domain w1 = Ret (VStr "example.com") ∧ after next_domain w1 = w.
Proof.
  intros w. apply (add_domain_next_domain_round_trip w "example.com" 4).
  - split; [apply NoDup_nil_2|]. intros d.
    replace (queued_domains (self w)) with (@nil string) by reflexivity.
    replace (pending_domains (self w)) with (∅ : gset string) by reflexivity.
    by rewrite elem_of_nil, elem_of_empty.
  - reflexivity.
Defined.

Lemma next_domains_S n w :
  next_domains (S n) w =
    match next_domain w with
    | (Ret v, w1) =>
        match next_domains n w1 with
        | (Ret vs, w2) => (Ret (v :: vs), w2)
        | (Raise e, w2) => (Raise e, w2)
        end
    | (Raise e, w1) => (Raise e, w1)
    end.
Proof.
  cbn [next_domains]. unfold mbind, M_bind, mret, M_ret.
  destruct (next_domain w) as [[v|e] w1]; [|done].
  by destruct (next_domains n w1) as [[vs|e] w2].
Qed.

Lemma next_domains_all l : ∀ w,
  in_sync (self w) → queued_domains (self w) = l →
  ∃ w', next_domains (length l) w = (Ret (VStr <$> l), w') ∧
        pending_domains (self w') = ∅ ∧ queued_domains (self w') = [].
Proof.
  induction l as [|d l IH]; intros w Hs Hq.
  - exists w. split; [done|]. split; [|done].
    apply leibniz_equiv. intros x. destruct Hs as [_ Hmem].
    rewrite <- Hmem, Hq. set_solver.
  - destruct (next_domain_step w d l Hs Hq) as (w1 & Hn & Hs1 & Hq1 & _).
    destruct (IH w1 Hs1 Hq1) as (w' & Hns & Hp & Hq').
    exists w'. cbn [length]. rewrite next_domains_S, Hn, Hns. done.
Qed.

(** X8: in a scheduler whose domain order queue agrees with its pending
    domains, as many [next_domain()] calls as there are pending domains
    return every pending domain exactly once; after them no domain is
    pending and [next_domain()] returns [None]. *)
Theorem next_domain_hands_out_each_pending_domain_once (w : World) :
  in_sync (self w) →
  let n := size (pending_domains (self w)) in
  let w' := after (next_domains n) w in
  ∃ ds, result (next_domains n) w = Ret (VStr <$> ds) ∧
        NoDup ds ∧
        (∀ d, d ∈ ds ↔ d ∈ pending_domains (self w)) ∧
        pending_domains (self w') = ∅ ∧
        result next_domain w' = Ret VNone.
Proof.
  intros Hs n w'. pose proof Hs as [Hnd Hmem].
  assert (Hn : n = length (queued_domains (self w))).
  { subst n. unfold size, set_size. cbn. apply Permutation_length.
    symmetry. apply NoDup_Permutation; [done|apply NoDup_elements|].
    intros d. by rewrite Hmem, elem_of_elements. }
  destruct (next_domains_all _ w Hs eq_refl) as (w1 & Hns & Hp & _).
  rewrite <- Hn in Hns.
  exists (queued_domains (self w)). subst w'. unfold result, after.
  rewrite Hns. cbn. rewrite (next_domain_none w1 Hp). done.
Qed.

Lemma next_domain_hands_out_each_pending_domain_once_witness :
  let w := after (add_domain "other.org" 5)
             (after (add_domain "example.com" 0) (fresh "BFO")) in
  ∃ ds, result (next_domains 2) w = Ret (VStr <$> ds) ∧ NoDup ds.
Proof.
  intros w.
  destruct (next_domain_hands_out_each_pending_domain_once w)
    as (ds & Hr & Hnd & _).
  - split.
    + apply (bool_decide_unpack _). vm_compute. exact I.
    + intros d.
      replace (queued_domains (self w)) with ["other.org"; "example.com"]
        by reflexivity.
      replace (pending_domains (self w))
        with ({["example.com"; "other.org"]} : gset string) by reflexivity.
      rewrite !elem_of_cons, elem_of_nil, elem_of_union, !elem_of_singleton.
      tauto.
  - exists ds. split; [exact Hr|exact Hnd].
Defined.

(** ** When [next_domain] raises *)

Lemma exec_pending_queued (c : call) (w : World) :
  pending_queued (self w) → pending_queued (self (exec c w)).
Proof.
  intros Hpq.
  destruct (decide (admission_call c = false)) as [Hc|Hc].
  { destruct (exec_keeps_admission c w Hc) as [Hp Hq].
    unfold pending_queued, queued_domains. by rewrite Hp, Hq. }
  destruct c as [d|d|d| |d p|d|d r|d|d|d| ]; try done; unfold exec, after.
  - rewrite next_domain_eq. case_bool_decide; [done|].
    destruct (pop (domains_queue (self w))) as [[[x p] dq']|e] eqn:Hpop; [|done].
    apply pop_inl in Hpop as [Hi _].
    assert (Hq : queued_domains (self w) = x :: (items dq').*1).
    { unfold queued_domains. by rewrite Hi. }
    case_bool_decide as Hx; intros y Hy; unfold queued_domains; cbn in Hy |- *.
    + apply elem_of_difference in Hy as [Hy Hne].
      apply Hpq in Hy. rewrite Hq in Hy. set_solver.
    + pose proof (Hpq y Hy) as Hy'. rewrite Hq in Hy'.
      apply elem_of_cons in Hy' as [->|Hy']; done.
  - destruct (decide (d ∈ pending_domains (self w))) as [Hd|Hd].
    + by rewrite add_domain_pending.
    + rewrite add_domain_new by done. intros y Hy.
      unfold queued_domains. cbn in Hy |- *. rewrite items_push.
      cbn. apply elem_of_cons. apply elem_of_union in Hy as [Hy|Hy].
      * right. by apply Hpq.
      * left. by apply elem_of_singleton in Hy.
  - rewrite remove_pending_domain_eq. cbn. destruct (_ && _); [|done].
    intros y Hy. cbn in Hy. apply elem_of_difference in Hy as [Hy _].
    by apply Hpq.
Qed.

Lemma exec_all_pending_queued (cs : list call) (w : World) :
  pending_queued (self w) → pending_queued (self (exec_all cs w)).
Proof.
  induction cs as [|c cs IH] using rev_ind; [done|].
  intros H. rewrite exec_all_snoc. by apply exec_pending_queued, IH.
Qed.

Lemma exec_all_in_sync (cs : list call) (w : World) :
  Forall (fun c => ∀ d, c ≠ Call_remove_pending_domain d) cs →
  in_sync (self w) → in_sync (self (exec_all cs w)).
Proof.
  induction cs as [|c cs IH] using rev_ind; [done|].
  intros Hcs H. apply Forall_app in Hcs as [Hcs Hc].
  apply Forall_cons in Hc as [Hc _].
  rewrite exec_all_snoc. apply exec_in_sync; [exact Hc|by apply IH].
Qed.

(** X9: after any sequence of calls on a new scheduler, [next_domain()]
    never raises [IndexError]; and when the sequence has no
    [remove_pending_domain] call, it does not raise at all. *)
Theorem next_domain_failures
    (order : string) (store : list Deferred) (cs : list call) :
  let w := exec_all cs (mkWorld (__init__ order) store) in
  result next_domain w ≠ Raise IndexError ∧
  (Forall (fun c => ∀ d, c ≠ Call_remove_pending_domain d) cs →
   ∃ v, result next_domain w = Ret v).
Proof.
  intros w. split.
  - assert (Hpq : pending_queued (self w)).
    { apply exec_all_pending_queued. intros d Hd. cbn in Hd. set_solver. }
    unfold result. rewrite next_domain_eq. case_bool_decide as He; [done|].
    destruct (pop (domains_queue (self w))) as [[[x p] dq']|e] eqn:Hpop.
    + by case_bool_decide.
    + exfalso. apply He. apply leibniz_equiv. intros y. split; [|set_solver].
      intros Hy. apply Hpq in Hy. unfold queued_domains in Hy.
      assert (Hi : items (domains_queue (self w)) = []).
      { by destruct (domains_queue (self w)) as [[|]|[|]]. }
      rewrite Hi in Hy. set_solver.
  - intros Hcs. apply next_domain_in_sync.
    apply exec_all_in_sync; [done|]. apply init_in_sync.
Qed.

Lemma next_domain_failures_witness :
  let w := exec_all [Call_add_domain "example.com" 0; Call_open_domain "example.com";
                     Call_add_domain "other.org" 1]
             (fresh "BFO") in
  ∃ v, result next_domain w = Ret v.
Proof.
  intros w.
  apply (next_domain_failures "BFO" []
           [Call_add_domain "example.com" 0; Call_open_domain "example.com";
            Call_add_domain "other.org" 1]).
  repeat constructor; discriminate.
Defined.

(** X10: [next_domain()] raises [KeyError] exactly when some domain is
    pending and the domain at the head of the domain order queue is not;
    the call has then taken that entry off the queue and left the pending
    domains as they were. *)
Theorem next_domain_KeyError_drops_stale_entry (w : World) :
  (result next_domain w = Raise KeyError ↔
     pending_domains (self w) ≠ ∅ ∧
     ∃ d rest, queued_domains (self w) = d :: rest ∧
               d ∉ pending_domains (self w)) ∧
  (result next_domain w = Raise KeyError →
     queued_domains (self w)
       = hd "" (queued_domains (self w))
         :: queued_domains (self (after next_domain w)) ∧
     pending_domains (self (after next_domain w)) = pending_domains (self w)).
Proof.
  unfold result, after. rewrite next_domain_eq.
  case_bool_decide as He.
  { cbn. split; [split; [done|by intros [? _]]|done]. }
  destruct (pop (domains_queue (self w))) as [[[x p] dq']|e] eqn:Hpop.
  - apply pop_inl in Hpop as [Hi _].
    assert (Hq : queued_domains (self w) = x :: (items dq').*1).
    { unfold queued_domains. by rewrite Hi. }
    rewrite Hq. case_bool_decide as Hx; cbn.
    + split; [|done]. split; [done|].
      intros (_ & d & rest & [= <- _] & Hd). done.
    + split; [|done]. split; [|done]. intros _. split; [done|]. eauto.
  - assert (Hi : items (domains_queue (self w)) = []).
    { by destruct (domains_queue (self w)) as [[|]|[|]]. }
    assert (e = IndexError) as ->.
    { destruct (domains_queue (self w)) as [[|]|[|]]; cbn in Hpop; congruence. }
    cbn. unfold queued_domains. rewrite Hi. cbn.
    split; [|done]. split; [done|]. by intros (_ & d & rest & ? & _).
Qed.

Lemma next_domain_KeyError_drops_stale_entry_witness :
  let w := exec_all [Call_add_domain "example.com" 0;
                     Call_remove_pending_domain "example.com";
                     Call_add_domain "other.org" 0] (fresh "BFO") in
  queued_domains (self w)
    = "example.com" :: queued_domains (self (after next_domain w)) ∧
  result next_domain (after next_domain w) = Ret (VStr "other.org").
Proof.
  intros w.
  destruct (next_domain_KeyError_drops_stale_entry w) as [_ H].
  destruct H as [Hq _]; [reflexivity|].
  split; [exact Hq|reflexivity].
Defined.

(** ** Requests and their handles *)

(** X11: on an open domain whose queue is empty, [enqueue_request(D, r)]
    followed by [next_request(D)] gives back [r] paired with the handle
    that [enqueue_request] returned, and the scheduler's attributes are
    again what they were. *)
Theorem enqueue_request_next_request_round_trip
    (w : World) (d : Domain) (r : Request) (q : Container (Request * Handle)) :
  pending_requests (self w) !! d = Some q → items q = [] →
  let w1 := after (enqueue_request d r) w in
  ∃ h, result (enqueue_request d r) w = Ret h ∧
       result (next_request d) w1 = Ret (VRequest r, VDeferred h) ∧
       self (after (next_request d) w1) = self w.
Proof.
  intros Hq Hi w1. exists (length (deferreds w)).
  subst w1. unfold result, after.
  rewrite (enqueue_request_open w d r q Hq). cbn [fst snd].
  split; [done|].
  assert (Hpop : pop (push (r, length (deferreds w)) (priority r) q)
                 = inl ((r, length (deferreds w), priority r), q)).
  { destruct q as [l|l]; cbn in Hi; by subst l. }
  erewrite next_request_pop; [|cbn; apply lookup_insert_eq|exact Hpop].
  cbn. split; [done|]. unfold set_pending_requests. cbn.
  rewrite insert_insert_eq, insert_id by done. apply Scheduler_eta.
Qed.

Lemma enqueue_request_next_request_round_trip_witness :
  let w := after (open_domain "example.com") (fresh "DFO") in
  let w1 := after (enqueue_request "example.com" example_request) w in
  ∃ h, result (enqueue_request "example.com" example_request) w = Ret h ∧
       result (next_request "example.com") w1
         = Ret (VRequest example_request, VDeferred h) ∧
       self (after (next_request "example.com") w1) = self w.
Proof.
  intros w.
  apply (enqueue_request_next_request_round_trip w "example.com"
           example_request (PriorityStack [])); reflexivity.
Defined.

(** The caller loops, one call at a time. *)
Lemma enqueue_requests_cons d r rs w :
  enqueue_requests d (r :: rs) w =
    match enqueue_request d r w with
    | (Ret h, w1) =>
        match enqueue_requests d rs w1 with
        | (Ret hs, w2) => (Ret (h :: hs), w2)
        | (Raise e, w2) => (Raise e, w2)
        end
    | (Raise e, w1) => (Raise e, w1)
    end.
Proof.
  cbn [enqueue_requests]. unfold mbind, M_bind, mret, M_ret.
  destruct (enqueue_request d r w) as [[h|e] w1]; [|done].
  by destruct (enqueue_requests d rs w1) as [[hs|e] w2].
Qed.

Lemma next_requests_S d n w :
  next_requests d (S n) w =
    match next_request d w with
    | (Ret v, w1) =>
        match next_requests d n w1 with
        | (Ret vs, w2) => (Ret (v :: vs), w2)
        | (Raise e, w2) => (Raise e, w2)
        end
    | (Raise e, w1) => (Raise e, w1)
    end.
Proof.
  cbn [next_requests]. unfold mbind, M_bind, mret, M_ret.
  destruct (next_request d w) as [[v|e] w1]; [|done].
  by destruct (next_requests d n w1) as [[vs|e] w2].
Qed.

Lemma enqueue_requests_open d rs : ∀ w q,
  pending_requests (self w) !! d = Some q →
  ∃ w' q',
    enqueue_requests d rs w
      = (Ret (seq (length (deferreds w)) (length rs)), w') ∧
    pending_requests (self w') !! d = Some q' ∧
    items q' ≡ₚ
      zip_with (fun r h => (r, h, priority r)) rs
        (seq (length (deferreds w)) (length rs)) ++ items q.
Proof.
  induction rs as [|r rs IH]; intros w q Hq.
  - exists w, q. done.
  - rewrite enqueue_requests_cons, (enqueue_request_open w d r q Hq).
    set (w1 := mkWorld _ _).
    destruct (IH w1 (push (r, length (deferreds w)) (priority r) q))
      as (w' & q' & He & Hq' & Hi).
    { subst w1. cbn. apply lookup_insert_eq. }
    assert (Hlen : length (deferreds w1) = S (length (deferreds w))).
    { subst w1. cbn. rewrite length_app. cbn. lia. }
    rewrite Hlen in He, Hi. rewrite He.
    exists w', q'. split; [done|]. split; [done|].
    rewrite Hi, items_push. cbn [length seq zip_with].
    by rewrite <- Permutation_middle.
Qed.

Lemma next_requests_all d l : ∀ w q,
  pending_requests (self w) !! d = Some q → items q = l →
  ∃ w' q',
    next_requests d (length l) w = (Ret (entry_value <$> l), w') ∧
    pending_requests (self w') !! d = Some q' ∧ items q' = [].
Proof.
  induction l as [|[[r h] p] l IH]; intros w q Hq Hi.
  - exists w, q. done.
  - destruct (pop_nonempty q) as (e & q1 & Hpop & Hi1 & _); [by rewrite Hi|].
    rewrite Hi in Hi1. injection Hi1 as <- Hl.
    cbn [length]. rewrite next_requests_S, (next_request_pop w d q r h p q1 Hq Hpop).
    set (w1 := mkWorld _ _).
    destruct (IH w1 q1) as (w' & q' & Hn & Hq' & Hi'); [|done|].
    { subst w1. cbn. apply lookup_insert_eq. }
    rewrite Hn. by exists w', q'.
Qed.

(** X12: open a domain, enqueue any list of requests, and call
    [next_request] once per request: each request comes back exactly
    once, paired with the handle its [enqueue_request] returned; the
    handles are pairwise different; one more [next_request] returns
    [(None, None)]. *)
Theorem every_request_comes_back_with_its_handle
    (w : World) (d : Domain) (rs : list Request) :
  let w1 := after (open_domain d) w in
  let w2 := after (enqueue_requests d rs) w1 in
  let w3 := after (next_requests d (length rs)) w2 in
  ∃ hs out,
    result (enqueue_requests d rs) w1 = Ret hs ∧
    length hs = length rs ∧ NoDup hs ∧
    result (next_requests d (length rs)) w2 = Ret out ∧
    out ≡ₚ zip_with (fun r h => (VRequest r, VDeferred h)) rs hs ∧
    result (next_request d) w3 = Ret (VNone, VNone).
Proof.
  intros w1 w2 w3.
  set (q0 := if dfo (self w) then @PriorityStack (Request * Handle) []
             else PriorityQueue []).
  assert (H1 : pending_requests (self w1) !! d = Some q0).
  { subst w1. unfold after. rewrite open_domain_eq. cbn. apply lookup_insert_eq. }
  destruct (enqueue_requests_open d rs w1 q0 H1) as (w2' & q2 & He & Hq2 & Hi2).
  assert (w2 = w2') as -> by (subst w2; unfold after; by rewrite He).
  assert (Hq0 : items q0 = []) by (subst q0; by destruct (dfo (self w))).
  rewrite Hq0, app_nil_r in Hi2.
  set (hs := seq (length (deferreds w1)) (length rs)) in *.
  assert (Hlen : length hs = length rs) by apply length_seq.
  destruct (next_requests_all d (items q2) w2' q2 Hq2 eq_refl)
    as (w3' & q3 & Hn & Hq3 & Hi3).
  assert (Hl2 : length (items q2) = length rs).
  { rewrite Hi2, length_zip_with. lia. }
  rewrite Hl2 in Hn.
  assert (w3 = w3') as -> by (subst w3; unfold after; by rewrite Hn).
  exists hs, (entry_value <$> items q2). unfold result.
  rewrite He, Hn, (next_request_empty w3' d q3 Hq3 Hi3). cbn.
  split; [done|]. split; [done|]. split; [apply NoDup_seq|].
  split; [done|]. split; [|done].
  rewrite Hi2. clear. generalize hs. induction rs as [|r rs IH]; intros [|h hs'];
    cbn; try done. by rewrite IH.
Qed.

Lemma enqueue_request_returns w d r h :
  result (enqueue_request d r) w = Ret h →
  h = length (deferreds w) ∧
  length (deferreds (after (enqueue_request d r) w)) = S (length (deferreds w)).
Proof.
  unfold result, after. destruct (pending_requests (self w) !! d) as [q|] eqn:Hq.
  - rewrite (enqueue_request_open w d r q Hq). cbn. intros [= <-].
    split; [done|]. rewrite length_app. cbn. lia.
  - by rewrite (enqueue_request_closed w d r Hq).
Qed.

(** X13: a handle returned by [enqueue_request] differs from every handle
    an earlier [enqueue_request] returned, whatever was called in
    between and whatever the domains are. *)
Theorem enqueue_request_handle_is_new
    (w : World) (d1 d2 : Domain) (r1 r2 : Request) (cs : list call)
    (h1 h2 : Handle) :
  result (enqueue_request d1 r1) w = Ret h1 →
  result (enqueue_request d2 r2)
         (exec_all cs (after (enqueue_request d1 r1) w)) = Ret h2 →
  h1 ≠ h2.
Proof.
  intros H1 H2.
  apply enqueue_request_returns in H1 as [-> Hlen].
  apply enqueue_request_returns in H2 as [-> _].
  destruct (exec_all_frame cs (after (enqueue_request d1 r1) w)) as ([k ->] & _).
  rewrite length_app, Hlen. lia.
Qed.

Lemma enqueue_request_handle_is_new_witness :
  let w := exec_all [Call_open_domain "example.com"; Call_open_domain "other.org"]
             (fresh "BFO") in
  let w' := exec_all [Call_next_request "example.com"]
              (after (enqueue_request "example.com" R1) w) in
  result (enqueue_request "example.com" R1) w = Ret 0%nat ∧
  result (enqueue_request "other.org" R2) w' = Ret 1%nat ∧
  (0 ≠ 1)%nat.
Proof.
  intros w w'. split; [reflexivity|]. split; [reflexivity|].
  apply (enqueue_request_handle_is_new w "example.com" "other.org" R1 R2
           [Call_next_request "example.com"] 0%nat 1%nat); reflexivity.
Defined.

(** ** The setting read by [__init__] *)

Lemma upper_ascii_D c :
  upper_ascii c = Ascii.ascii_of_nat 68 ↔
  c = Ascii.ascii_of_nat 68 ∨ c = Ascii.ascii_of_nat 100.
Proof.
  destruct c as [[] [] [] [] [] [] [] []]; vm_compute;
    split; try discriminate; try (intros [?|?]; discriminate); auto.
Qed.

Lemma upper_ascii_F c :
  upper_ascii c = Ascii.ascii_of_nat 70 ↔
  c = Ascii.ascii_of_nat 70 ∨ c = Ascii.ascii_of_nat 102.
Proof.
  destruct c as [[] [] [] [] [] [] [] []]; vm_compute;
    split; try discriminate; try (intros [?|?]; discriminate); auto.
Qed.

Lemma upper_ascii_O c :
  upper_ascii c = Ascii.ascii_of_nat 79 ↔
  c = Ascii.ascii_of_nat 79 ∨ c = Ascii.ascii_of_nat 111.
Proof.
  destruct c as [[] [] [] [] [] [] [] []]; vm_compute;
    split; try discriminate; try (intros [?|?]; discriminate); auto.
Qed.

(** X14: a new scheduler is depth-first exactly when SCHEDULER_ORDER is
    the three letters D, F, O, each in either case; every other value
    gives a breadth-first scheduler. *)
Theorem dfo_iff_order_is_DFO_in_any_case (order : string) :
  dfo (__init__ order) = true ↔
  order ∈ ["DFO"; "DFo"; "DfO"; "Dfo"; "dFO"; "dFo"; "dfO"; "dfo"].
Proof.
  cbn [dfo __init__]. rewrite String.eqb_eq. split.
  - destruct order as [|c1 [|c2 [|c3 [|c4 s]]]]; cbn; try discriminate.
    intros [= H1 H2 H3].
    apply upper_ascii_D in H1. apply upper_ascii_F in H2.
    apply upper_ascii_O in H3.
    destruct H1 as [->| ->], H2 as [->| ->], H3 as [->| ->];
      apply (bool_decide_unpack _); vm_compute; exact I.
  - rewrite !elem_of_cons, elem_of_nil.
    intros [->|[->|[->|[->|[->|[->|[->|[->|[]]]]]]]]]; reflexivity.
Qed.

Lemma dfo_iff_order_is_DFO_in_any_case_witness :
  dfo (__init__ "dFo") = true ∧ dfo (__init__ "BFO") = false.
Proof.
  destruct (dfo_iff_order_is_DFO_in_any_case "dFo") as [_ H1].
  destruct (dfo_iff_order_is_DFO_in_any_case "BFO") as [H2 _].
  split.
  - apply H1. apply (bool_decide_unpack _). vm_compute. exact I.
  - destruct (dfo (__init__ "BFO")); [|reflexivity].
    specialize (H2 eq_refl). apply (bool_decide_pack _) in H2.
    vm_compute in H2. destruct H2.
Defined.
